(** * dessert: naming classifier and rar extraction loop (src/src/main.rs)

    Shallow embedding of [get_destination_file_name], [find_rar_file] and
    [extract_rar_file].  File names are modelled as ASCII strings; the two
    regular expressions of [get_destination_file_name] are run by a
    backtracking matcher with leftmost-first priority, which is the match the
    Rust [regex] crate reports for [captures]. *)

From Stdlib Require Import String Ascii List Bool Arith Lia.
From Stdlib Require Import Init.Byte.
Import ListNotations.
Open Scope list_scope.

(** ** Characters and small string helpers *)

Definition chr (n : nat) : ascii := ascii_of_nat n.

Definition ascii_eqb (a b : ascii) : bool := Nat.eqb (nat_of_ascii a) (nat_of_ascii b).

(** [.] of the regex crate: every character except a line feed. *)
Definition is_any (a : ascii) : bool := negb (ascii_eqb a (chr 10)).

(** [\d], on the ASCII alphabet of the model. *)
Definition is_digit (a : ascii) : bool :=
  (48 <=? nat_of_ascii a) && (nat_of_ascii a <=? 57).

Definition is_s (a : ascii) : bool := ascii_eqb a "s"%char || ascii_eqb a "S"%char.
Definition is_e (a : ascii) : bool := ascii_eqb a "e"%char || ascii_eqb a "E"%char.
Definition is_dot (a : ascii) : bool := ascii_eqb a "."%char.

(** [char::is_whitespace] on ASCII: tab, LF, VT, FF, CR and space. *)
Definition is_whitespace (a : ascii) : bool :=
  let n := nat_of_ascii a in ((9 <=? n) && (n <=? 13)) || (n =? 32).

Definition str (l : list ascii) : string := string_of_list_ascii l.
Definition chars (s : string) : list ascii := list_ascii_of_string s.

(** ** Backtracking regular-expression matcher *)
Module Regex.

(** The constructs the two patterns use: a character class, sequence,
    a star over a character class (greedy, or lazy as with "?"), an optional
    part ([?] greedy or lazy) and a named capture group. *)
Inductive regex : Type :=
| RClass (p : ascii -> bool)
| RSeq (r1 r2 : regex)
| RStar (greedy : bool) (p : ascii -> bool)
| ROpt (greedy : bool) (r : regex)
| RGroup (name : string) (r : regex).

(** Capture slots: group name and (start, end) offsets; the most recent
    binding of a name comes first. *)
Definition caps := list (string * (nat * nat)).

Definition cont := list ascii -> nat -> caps -> option caps.

Fixpoint star (greedy : bool) (p : ascii -> bool) (s : list ascii) (i : nat)
    (c : caps) (k : cont) : option caps :=
  if greedy then
    match s with
    | a :: s' =>
        if p a then
          match star greedy p s' (S i) c k with
          | Some r => Some r
          | None => k s i c
          end
        else k s i c
    | [] => k s i c
    end
  else
    match k s i c with
    | Some r => Some r
    | None =>
        match s with
        | a :: s' => if p a then star greedy p s' (S i) c k else None
        | [] => None
        end
    end.

(** [m r s i c k]: match [r] at offset [i] (remaining input [s]) with
    capture slots [c], then continue with [k]; the first success in
    priority order is returned. *)
Fixpoint m (r : regex) (s : list ascii) (i : nat) (c : caps) (k : cont)
    : option caps :=
  match r with
  | RClass p =>
      match s with
      | a :: s' => if p a then k s' (S i) c else None
      | [] => None
      end
  | RSeq r1 r2 => m r1 s i c (fun s' i' c' => m r2 s' i' c' k)
  | RStar g p => star g p s i c k
  | ROpt g r1 =>
      if g then
        match m r1 s i c k with
        | Some x => Some x
        | None => k s i c
        end
      else
        match k s i c with
        | Some x => Some x
        | None => m r1 s i c k
        end
  | RGroup n r1 => m r1 s i c (fun s' i' c' => k s' i' ((n, (i, i')) :: c'))
  end.

Definition accept : cont := fun _ _ c => Some c.

(** Unanchored search: the leftmost start offset at which [r] matches. *)
Fixpoint search (r : regex) (s : list ascii) (i : nat) : option caps :=
  match m r s i [] accept with
  | Some c => Some c
  | None =>
      match s with
      | [] => None
      | _ :: s' => search r s' (S i)
      end
  end.

(** [Regex::captures]. *)
Definition captures (r : regex) (s : list ascii) : option caps := search r s 0.

Fixpoint group (c : caps) (n : string) : option (nat * nat) :=
  match c with
  | [] => None
  | (n', p) :: c' => if String.eqb n n' then Some p else group c' n
  end.

(** [Captures::name(n).map(|m| m.as_str())]. *)
Definition name (input : list ascii) (c : caps) (n : string) : option (list ascii) :=
  match group c n with
  | Some (a, b) => Some (firstn (b - a) (skipn a input))
  | None => None
  end.

End Regex.
Import Regex.

(** [\d{1,2}]: one digit, then a greedy optional digit. *)
Definition digits_1_2 : regex := RSeq (RClass is_digit) (ROpt true (RClass is_digit)).

(** The episode pattern of the source: a greedy star of [.] in group [name],
    then [[sS]], [\d{1,2}] in group [season], [.?], [[eE]] and [\d{1,2}] in
    group [episode]. *)
Definition episode_regex : regex :=
  RSeq (RGroup "name" (RStar true is_any))
 (RSeq (RClass is_s)
 (RSeq (RGroup "season" digits_1_2)
 (RSeq (ROpt true (RClass is_any))
 (RSeq (RClass is_e)
       (RGroup "episode" digits_1_2))))).

(** The movie pattern of the source: a star of [.] in group [name], a literal
    period and [\d{4}] in group [year], built with [swap_greed(true)]: the
    star becomes lazy; the exact repetition [{4}] is unaffected. *)
Definition movie_regex : regex :=
  RSeq (RGroup "name" (RStar false is_any))
 (RSeq (RClass is_dot)
       (RGroup "year" (RSeq (RClass is_digit) (RSeq (RClass is_digit)
                      (RSeq (RClass is_digit) (RClass is_digit)))))).

(** ** Errors and results

    The [anyhow!] and [.context(..)] messages of main.rs, one constructor each. *)
Inductive error : Type :=
| StemMissing            (* "Failed to get rar file stem" *)
| EpisodeNameMissing     (* "Failed to get episode name from file name" *)
| EpisodeSeasonMissing   (* "Failed to get episode season from file name" *)
| EpisodeNumberMissing   (* "Failed to get episode number from file name" *)
| MovieNameMissing       (* "Failed to get movie name from file name" *)
| MovieYearMissing       (* "Failed to get movie year from file name" *)
| NoPatternMatch         (* "Failed to get destination file name from rar file stem" *)
| ReadDirFailed          (* "Failed to read source directory" *)
| RarNotFound            (* "Failed to find rar file" *)
| OpenFailed             (* "Failed to open rar file for processing" *)
| ReadFailed             (* "Failed to read rar" *)
| NoExtension            (* "Failed to get file extension from rar header" *)
| MetadataFailed         (* "Failed to read file size of existing destination file" *)
| RemoveFailed           (* "Failed to remove existing destination file" *)
| ExtractFailed          (* "Failed to extract rar file" *)
| SkipFailed.            (* "Failed to skip rar file header" *)

Inductive result (A : Type) : Type :=
| Ok (a : A)
| Err (e : error).
Arguments Ok {A} a.
Arguments Err {A} e.

(** ** Paths (std::path on a single file name, '/' as separator) *)

Fixpoint split_on (sep : ascii) (l : list ascii) : list (list ascii) :=
  match l with
  | [] => [[]]
  | a :: l' =>
      if ascii_eqb a sep then [] :: split_on sep l'
      else match split_on sep l' with
           | w :: ws => (a :: w) :: ws
           | [] => [[a]]
           end
  end.

Definition list_eqb (l1 l2 : list ascii) : bool := String.eqb (str l1) (str l2).

(** [Path::file_name]: the last normal component; [None] for [..] or when
    there is none.  Empty and [.] components are dropped, as [components]
    does. *)
Definition path_file_name (p : string) : option (list ascii) :=
  let comps := filter (fun w => negb (list_eqb w []) && negb (list_eqb w (chars ".")))
                      (split_on "/"%char (chars p)) in
  match rev comps with
  | [] => None
  | f :: _ => if list_eqb f (chars "..") then None else Some f
  end.

(** Split a reversed name at its first period: (reversed part after the
    last period, reversed part before it). *)
Fixpoint break_at_dot (r : list ascii) : option (list ascii * list ascii) :=
  match r with
  | [] => None
  | a :: r' =>
      if is_dot a then Some ([], r')
      else match break_at_dot r' with
           | Some (x, y) => Some (a :: x, y)
           | None => None
           end
  end.

(** [rsplit_file_at_dot]: (before, after) the last period. *)
Definition rsplit_file_at_dot (f : list ascii) : option (list ascii) * option (list ascii) :=
  if list_eqb f (chars "..") then (Some f, None)
  else
    match break_at_dot (rev f) with
    | None => (None, Some f)
    | Some (after, before) =>
        match before with
        | [] => (Some f, None)
        | _ => (Some (rev before), Some (rev after))
        end
    end.

(** [Path::file_stem]: [before.or(after)]. *)
Definition file_stem (p : string) : option string :=
  match path_file_name p with
  | None => None
  | Some f =>
      match rsplit_file_at_dot f with
      | (Some b, _) => Some (str b)
      | (None, a) => option_map str a
      end
  end.

(** [Path::extension]: [before.and(after)]. *)
Definition extension (p : string) : option string :=
  match path_file_name p with
  | None => None
  | Some f =>
      match rsplit_file_at_dot f with
      | (Some _, a) => option_map str a
      | (None, _) => None
      end
  end.

(** [Path::with_extension] on a file name without separators: cut after the
    stem, then append "." and the extension when it is not empty. *)
Definition with_extension (p : string) (ext : string) : string :=
  match file_stem p with
  | None => p
  | Some st => if String.eqb ext "" then st else (st ++ "." ++ ext)%string
  end.

(** ** Naming classifier *)

(** [str::replace('.', " ")]. *)
Definition replace_dots (l : list ascii) : list ascii :=
  List.map (fun a => if is_dot a then " "%char else a) l.

Fixpoint drop_ws (l : list ascii) : list ascii :=
  match l with
  | a :: l' => if is_whitespace a then drop_ws l' else l
  | [] => []
  end.

(** [str::trim]. *)
Definition trim (l : list ascii) : list ascii := rev (drop_ws (rev (drop_ws l))).

Definition ascii_upper (a : ascii) : ascii :=
  let n := nat_of_ascii a in if (97 <=? n) && (n <=? 122) then chr (n - 32) else a.
Definition ascii_lower (a : ascii) : ascii :=
  let n := nat_of_ascii a in if (65 <=? n) && (n <=? 90) then chr (n + 32) else a.
Definition is_upper (a : ascii) : bool :=
  let n := nat_of_ascii a in (65 <=? n) && (n <=? 90).

(** Whitespace-separated words, empty ones dropped ([split_whitespace]). *)
Fixpoint words_aux (l : list ascii) (cur : list ascii) : list (list ascii) :=
  match l with
  | [] => match cur with [] => [] | _ => [rev cur] end
  | a :: l' =>
      if is_whitespace a then
        match cur with [] => words_aux l' [] | _ => rev cur :: words_aux l' [] end
      else words_aux l' (a :: cur)
  end.
Definition words (l : list ascii) : list (list ascii) := words_aux l [].

Definition small_words : list string :=
  ["a"; "an"; "and"; "as"; "at"; "but"; "by"; "en"; "for"; "if"; "in"; "of";
   "on"; "or"; "the"; "to"; "v"; "v."; "via"; "vs"; "vs."]%string.

Definition capitalize (w : list ascii) : list ascii :=
  match w with
  | a :: w' => if existsb is_upper w' then w else ascii_upper a :: w'
  | [] => []
  end.

Fixpoint join_words (ws : list (list ascii)) : list ascii :=
  match ws with
  | [] => []
  | [w] => w
  | w :: ws' => w ++ [" "%char] ++ join_words ws'
  end.

(** The external [titlecase] crate, modelled on ASCII words: every word gets
    an upper-case first letter, except the small words (lower-cased) that are
    neither first nor last; a word with an inner capital is kept.  The
    classifier below is defined for any title-casing function [tc] and its
    theorems hold for all of them; this model only serves concrete runs. *)
Definition titlecase (s : string) : string :=
  let ws := words (chars s) in
  let n := length ws in
  let step (iw : nat * list ascii) :=
    let (i, w) := iw in
    if (0 <? i) && (i <? n - 1)
       && existsb (String.eqb (str (List.map ascii_lower w))) small_words
    then List.map ascii_lower w
    else capitalize w in
  str (join_words (List.map step (combine (seq 0 n) ws))).

(** [format!("{:02}", s)] with [s : &str]: [Formatter::pad] gives width 2
    with the default left alignment and the space fill; the [0] flag only
    changes the fill of numeric formatting. *)
Definition pad02 (s : string) : string :=
  (s ++ String.concat "" (repeat " " (2 - String.length s)))%string.

Section Classifier.
Variable tc : string -> string.

(** The stem branch of [get_destination_file_name], from [Regex::new] for
    the episode pattern down to the final [Err]. *)
Definition classify (stem : string) : result string :=
  let l := chars stem in
  match captures episode_regex l with
  | Some c =>
      match name l c "name" with
      | None => Err EpisodeNameMissing
      | Some nm =>
          let nm := tc (str (trim (replace_dots nm))) in
          match name l c "season" with
          | None => Err EpisodeSeasonMissing
          | Some season =>
              match name l c "episode" with
              | None => Err EpisodeNumberMissing
              | Some episode =>
                  Ok (nm ++ " - S" ++ pad02 (str season) ++ "E" ++ pad02 (str episode))%string
              end
          end
      end
  | None =>
      match captures movie_regex l with
      | Some c =>
          match name l c "name" with
          | None => Err MovieNameMissing
          | Some nm =>
              let nm := tc (str (trim (replace_dots nm))) in
              match name l c "year" with
              | None => Err MovieYearMissing
              | Some year => Ok (nm ++ " (" ++ str year ++ ")")%string
              end
          end
      | None => Err NoPatternMatch
      end
  end.

(** [get_destination_file_name]. *)
Definition get_destination_file_name (rar_file : string) : result string :=
  match file_stem rar_file with
  | None => Err StemMissing
  | Some stem => classify stem
  end.

End Classifier.

(** ** Locating the archive *)

Definition is_rar (p : string) : bool :=
  match extension p with
  | Some ext => String.eqb ext "rar"
  | None => false
  end.

(** [find_rar_file]: [read_dir] yields [None] when the directory cannot be
    read, else the entries in directory order ([None] for an entry that
    failed, dropped by [flatten]); the first entry whose extension is [rar]
    is returned. *)
Definition find_rar_file (read_dir : option (list (option string))) : result string :=
  match read_dir with
  | None => Err ReadDirFailed
  | Some entries =>
      match find is_rar (flat_map (fun e => match e with Some p => [p] | None => [] end) entries) with
      | Some p => Ok p
      | None => Err RarNotFound
      end
  end.

(** ** Extraction *)

(** The destination directory: file contents by file name, and which
    operations the file system refuses ([metadata], [remove_file]). *)
Record World : Type := mkWorld {
  files : string -> option (list byte);
  meta_fails : string -> bool;
  remove_fails : string -> bool
}.

Definition set_file (w : World) (p : string) (v : option (list byte)) : World :=
  mkWorld (fun q => if String.eqb q p then v else files w q) (meta_fails w) (remove_fails w).

(** What the archive decoder does on [extract_to]: write the entry's bytes,
    or fail, leaving at the destination what it left there (if anything). *)
Inductive ExtractBehaviour : Type :=
| ExtractWrites (data : list byte)
| ExtractFails (leftover : option (list byte)).

(** A rar header as [extract_rar_file] sees it. *)
Record FileHeader : Type := mkHeader {
  filename : string;
  is_directory : bool;
  unpacked_size : nat;
  extract_behaviour : ExtractBehaviour;
  skip_ok : bool
}.

(** [FileHeader::is_file] of the unrar crate. *)
Definition is_file (h : FileHeader) : bool := negb (is_directory h).

(** An archive opened for processing: [read_header] yields the headers in
    order, [None] standing for a read error. *)
Record Archive : Type := mkArchive {
  opens : bool;
  headers : list (option FileHeader)
}.

(** File-system mutations, in the order they are performed. *)
Inductive Op : Type :=
| OpRemove (p : string)
| OpExtract (p : string).

Inductive outcome : Type :=
| Finished (w : World) (trace : list Op)
| Failed (e : error) (w : World) (trace : list Op).

(** The [while let Some(header) = archive.read_header()?] loop. *)
Fixpoint walk (file_name : string) (hs : list (option FileHeader)) (w : World)
    (tr : list Op) : outcome :=
  match hs with
  | [] => Finished w tr
  | None :: _ => Failed ReadFailed w tr
  | Some h :: hs' =>
      if is_file h then
        match extension (filename h) with
        | None => Failed NoExtension w tr
        | Some file_extension =>
            let destination := with_extension file_name file_extension in
            let extract_to (w : World) (tr : list Op) :=
              match extract_behaviour h with
              | ExtractWrites d =>
                  walk file_name hs' (set_file w destination (Some d))
                       (tr ++ [OpExtract destination])
              | ExtractFails lo =>
                  Failed ExtractFailed (set_file w destination lo)
                         (tr ++ [OpExtract destination])
              end in
            match files w destination with
            | None => extract_to w tr
            | Some contents =>
                if meta_fails w destination then Failed MetadataFailed w tr
                else if negb (unpacked_size h =? length contents) then
                  if remove_fails w destination then Failed RemoveFailed w tr
                  else extract_to (set_file w destination None) (tr ++ [OpRemove destination])
                else Finished w tr
            end
        end
      else if skip_ok h then walk file_name hs' w tr
      else Failed SkipFailed w tr
  end.

(** [extract_rar_file]: [file_name] is the canonical name, [w] the
    destination directory. *)
Definition extract_rar_file (rar : Archive) (file_name : string) (w : World) : outcome :=
  if opens rar then walk file_name (headers rar) w [] else Failed OpenFailed w [].

(** ** The pipeline: [verify_paths] and [run] *)

(** Errors of [run]: the two messages of [verify_paths], or an error of the
    steps it calls. *)
Inductive run_error : Type :=
| SourceNotDirectory       (* "Source directory is not a directory" *)
| DestinationNotDirectory  (* "Destination directory is not a directory" *)
| RunFailed (e : error).

(** What [run] observes of its arguments: whether each directory is a
    directory ([Path::is_dir]), the listing of the source directory (as for
    [find_rar_file]) and the archive found at each path. *)
Record Env : Type := mkEnv {
  source_is_dir : bool;
  destination_is_dir : bool;
  source_listing : option (list (option string));
  archive_at : string -> Archive
}.

(** [verify_paths]: [None] is [Ok(())]. *)
Definition verify_paths (env : Env) : option run_error :=
  if negb (source_is_dir env) then Some SourceNotDirectory
  else if negb (destination_is_dir env) then Some DestinationNotDirectory
  else None.

Inductive run_outcome : Type :=
| RunOk (file : string) (w : World)
| RunErr (e : run_error) (w : World).

(** [run], for a title-casing function [tc] and destination directory [w]. *)
Definition run (tc : string -> string) (env : Env) (w : World) : run_outcome :=
  match verify_paths env with
  | Some e => RunErr e w
  | None =>
      match find_rar_file (source_listing env) with
      | Err e => RunErr (RunFailed e) w
      | Ok rar_file =>
          match get_destination_file_name tc rar_file with
          | Err e => RunErr (RunFailed e) w
          | Ok destination_file_name =>
              match extract_rar_file (archive_at env rar_file) destination_file_name w with
              | Finished w' _ => RunOk destination_file_name w'
              | Failed e w' _ => RunErr (RunFailed e) w'
              end
          end
      end
  end.

(** ** Notification e-mail (src/src/email.rs) *)

Record Client : Type := mkClient {
  to : string;
  domain : string;
  api_base_path : string;
  api_key : string
}.

Fixpoint drop_slashes (l : list ascii) : list ascii :=
  match l with
  | a :: l' => if ascii_eqb a "/"%char then drop_slashes l' else l
  | [] => []
  end.

(** [str::trim_end_matches('/')]. *)
Definition trim_end_slashes (s : string) : string :=
  str (rev (drop_slashes (rev (chars s)))).

(** The [url] of [send_email]. *)
Definition messages_url (c : Client) : string :=
  (trim_end_slashes (api_base_path c) ++ "/" ++ domain c ++ "/messages")%string.

(** The [subject] of [send_email]. *)
Definition subject (file : option string) : string :=
  match file with
  | Some f => ("Dessert has been served: " ++ f)%string
  | None => "Dessert is ruined"%string
  end.

(** The [text] field: the raw string literal holds a line break, an empty
    line and the 28 spaces that indent [{log}] in the source. *)
Definition body (file : option string) (log : string) : string :=
  ((match file with Some f => f | None => "" end)
   ++ String (chr 10) (String (chr 10) (String.concat "" (repeat " " 28))) ++ log)%string.

(** The request [send_email] posts: url, basic-auth user and password,
    multipart text fields in order. *)
Record Request : Type := mkRequest {
  req_url : string;
  req_user : string;
  req_password : option string;
  req_form : list (string * string)
}.

Definition email_request (c : Client) (file : option string) (log : string) : Request :=
  mkRequest (messages_url c) "api" (Some (api_key c))
    [("from", "Dessert <dessert@mg.jonstodle.no>"); ("to", to c);
     ("subject", subject file); ("text", body file log)]%string.

(** What [send()] gives back: a transport error, or a status code and the
    body text ([None] when reading it fails). *)
Inductive Response : Type :=
| SendError
| Responded (status : nat) (text : option string).

Inductive email_error : Type :=
| SendFailed            (* "Failed to send email" *)
| Rejected (text : string)   (* "Failed to send email: {text}" *)
| ResponseTextFailed.   (* the error of [response.text()?] *)

Inductive email_result : Type :=
| EmailOk
| EmailErr (e : email_error).

(** [StatusCode::is_success]: 200 to 299. *)
Definition is_success (status : nat) : bool := (200 <=? status) && (status <? 300).

(** [Client::send_email], with [transport] standing for the HTTP client. *)
Definition send_email (c : Client) (file : option string) (log : string)
    (transport : Request -> Response) : email_result :=
  match transport (email_request c file log) with
  | SendError => EmailErr SendFailed
  | Responded status text =>
      if negb (is_success status) then
        match text with
        | Some t => EmailErr (Rejected t)
        | None => EmailErr ResponseTextFailed
        end
      else EmailOk
  end.

(** ** Auxiliary notions for the statements *)

(** Groups that every match of a pattern binds. *)
Fixpoint mandatory (r : regex) : list string :=
  match r with
  | RClass _ | RStar _ _ | ROpt _ _ => []
  | RSeq r1 r2 => mandatory r1 ++ mandatory r2
  | RGroup n r1 => n :: mandatory r1
  end.

Definition bound (c : caps) (n : string) : bool :=
  match group c n with Some _ => true | None => false end.

Definition extends (c c' : caps) : Prop := forall n, bound c n = true -> bound c' n = true.

Definition missing_capture (e : error) : bool :=
  match e with
  | EpisodeNameMissing | EpisodeSeasonMissing | EpisodeNumberMissing
  | MovieNameMissing | MovieYearMissing => true
  | _ => false
  end.

(** A period followed by four digits at the head of [s]. *)
Definition dotted_year_head (s : list ascii) : bool :=
  match s with
  | a :: b1 :: b2 :: b3 :: b4 :: _ =>
      is_dot a && is_digit b1 && is_digit b2 && is_digit b3 && is_digit b4
  | _ => false
  end.

(** A period followed by four digits at offset [k] of [l]. *)
Definition dotted_year_at (l : list ascii) (k : nat) : bool := dotted_year_head (skipn k l).

Definition year_tail : regex :=
  RSeq (RClass is_dot)
       (RGroup "year" (RSeq (RClass is_digit) (RSeq (RClass is_digit)
                      (RSeq (RClass is_digit) (RClass is_digit))))).

Definition empty_world : World := mkWorld (fun _ => None) (fun _ => false) (fun _ => false).

Definition trace_of (o : outcome) : list Op :=
  match o with Finished _ tr => tr | Failed _ _ tr => tr end.

(** One payload step of the loop, by the state of the destination. *)
Definition extract_step (fn : string) (h : FileHeader) (rest : list (option FileHeader))
    (dest : string) (w : World) (tr : list Op) : outcome :=
  match extract_behaviour h with
  | ExtractWrites d => walk fn rest (set_file w dest (Some d)) (tr ++ [OpExtract dest])
  | ExtractFails lo => Failed ExtractFailed (set_file w dest lo) (tr ++ [OpExtract dest])
  end.

Definition dir_header : FileHeader := mkHeader "Sample" true 0 (ExtractWrites []) true.
Definition mkv_header : FileHeader :=
  mkHeader "movie.mkv" false 3 (ExtractWrites [x01; x02; x03]) true.
Definition nfo_header : FileHeader :=
  mkHeader "movie.nfo" false 2 (ExtractWrites [x04; x05]) true.
Definition mkv_header2 : FileHeader :=
  mkHeader "Sample/sample.mkv" false 2 (ExtractWrites [x04; x05]) true.

Definition skippable_dirs (dirs : list FileHeader) : bool :=
  forallb (fun h => is_directory h && skip_ok h) dirs.

Definition broken_mkv_header : FileHeader :=
  mkHeader "movie.mkv" false 3 (ExtractFails None) true.

Definition world_of (o : outcome) : World :=
  match o with Finished w _ => w | Failed _ w _ => w end.

Definition run_world (o : run_outcome) : World :=
  match o with RunOk _ w => w | RunErr _ w => w end.

Definition op_path (op : Op) : string :=
  match op with OpRemove p => p | OpExtract p => p end.

(** Every removal in a trace is directly followed by an extraction to the
    same path. *)
Fixpoint removal_then_extract (tr : list Op) : bool :=
  match tr with
  | [] => true
  | OpExtract _ :: tr' => removal_then_extract tr'
  | OpRemove p :: tr' =>
      match tr' with
      | OpExtract q :: _ => String.eqb p q && removal_then_extract tr'
      | _ => false
      end
  end.

(** [p] is the destination [extract_rar_file rar fn] computes for a payload
    entry of [rar]: [fn] with the extension of that entry. *)
Definition payload_target (rar : Archive) (fn p : string) : Prop :=
  exists h ext, In (Some h) (headers rar) /\ is_file h = true /\
                extension (filename h) = Some ext /\ p = with_extension fn ext.

(** Names of the capture groups of a pattern. *)
Fixpoint group_names (r : regex) : list string :=
  match r with
  | RClass _ => []
  | RSeq r1 r2 => group_names r1 ++ group_names r2
  | RStar _ _ => []
  | ROpt _ r1 => group_names r1
  | RGroup n r1 => n :: group_names r1
  end.

(** The episode pattern after its [name] group. *)
Definition episode_rest : regex :=
  RSeq (RClass is_s)
 (RSeq (RGroup "season" digits_1_2)
 (RSeq (ROpt true (RClass is_any))
 (RSeq (RClass is_e)
       (RGroup "episode" digits_1_2)))).

(** A season/episode marker at the head of [s], read character by
    character: [s] or [S], one or two digits, at most one character other
    than a line feed, [e] or [E], a digit. *)
Definition e_then_digit (s : list ascii) : bool :=
  match s with a :: b :: _ => is_e a && is_digit b | _ => false end.

Definition after_season (s : list ascii) : bool :=
  e_then_digit s || match s with a :: s' => is_any a && e_then_digit s' | [] => false end.

Definition episode_marker (s : list ascii) : bool :=
  match s with
  | a :: b :: s' =>
      is_s a && is_digit b &&
      (after_season s' || match s' with c :: s'' => is_digit c && after_season s'' | [] => false end)
  | _ => false
  end.

(** ** Concrete runs *)

Example file_stem_rar : file_stem "movie.1999.remastered.2015.rar"%string = Some "movie.1999.remastered.2015"%string.
Proof. reflexivity. Qed.
Example extension_nested : extension "Sample/the.show.s01e02.mkv"%string = Some "mkv"%string.
Proof. reflexivity. Qed.
Example extension_hidden : extension ".mkv"%string = None.
Proof. reflexivity. Qed.
Example with_extension_plain : with_extension "Some Movie (2015)"%string "mkv"%string = "Some Movie (2015).mkv"%string.
Proof. reflexivity. Qed.

Example classify_episode : classify titlecase "the.show.s01e02" = Ok "The Show - S01E02"%string.
Proof. vm_compute. reflexivity. Qed.
Example classify_movie : classify titlecase "some.movie.title.2015" = Ok "Some Movie Title (2015)"%string.
Proof. vm_compute. reflexivity. Qed.

(** ** Facts about the matcher *)

Lemma extends_refl c : extends c c.
Proof. intros n H; exact H. Qed.

Lemma extends_trans c1 c2 c3 : extends c1 c2 -> extends c2 c3 -> extends c1 c3.
Proof. unfold extends; auto. Qed.

Lemma extends_cons c n p : extends c ((n, p) :: c).
Proof.
  intros x H; unfold bound in *; simpl.
  destruct (String.eqb x n); [reflexivity | exact H].
Qed.

Lemma bound_cons_self c n p : bound ((n, p) :: c) n = true.
Proof. unfold bound; simpl; now rewrite String.eqb_refl. Qed.

Lemma star_success g p s i c k res :
  star g p s i c k = Some res -> exists s' i', k s' i' c = Some res.
Proof.
  revert i; induction s as [|a s IH]; intros i H; destruct g; simpl in H.
  - eauto.
  - destruct (k [] i c) eqn:E; [inversion H; subst; eauto | discriminate].
  - destruct (p a).
    + destruct (star true p s (S i) c k) eqn:E.
      * inversion H; subst; eauto.
      * eauto.
    + eauto.
  - destruct (k (a :: s) i c) eqn:E.
    + inversion H; subst; eauto.
    + destruct (p a); [eauto | discriminate].
Qed.

Lemma m_success r : forall s i c k res,
  m r s i c k = Some res ->
  exists s' i' c', k s' i' c' = Some res /\ extends c c' /\
    Forall (fun n => bound c' n = true) (mandatory r).
Proof.
  induction r as [p|r1 IH1 r2 IH2|g p|g r1 IH|n r1 IH]; intros s i c k res H; simpl in H.
  - destruct s as [|a s]; [discriminate|].
    destruct (p a); [|discriminate].
    exists s, (S i), c; repeat split; auto using extends_refl.
  - destruct (IH1 _ _ _ _ _ H) as (s1 & i1 & c1 & H1 & E1 & M1).
    destruct (IH2 _ _ _ _ _ H1) as (s2 & i2 & c2 & H2 & E2 & M2).
    exists s2, i2, c2; split; [exact H2|split; [eapply extends_trans; eauto|]].
    simpl; apply Forall_app; split; [|exact M2].
    eapply Forall_impl; [|exact M1]; intros x Hx; apply E2, Hx.
  - destruct (star_success _ _ _ _ _ _ _ H) as (s' & i' & Hk).
    exists s', i', c; repeat split; auto using extends_refl.
  - destruct g.
    + destruct (m r1 s i c k) eqn:E.
      * inversion H; subst.
        destruct (IH _ _ _ _ _ E) as (s' & i' & c' & Hk & Ex & _).
        exists s', i', c'; repeat split; auto.
      * exists s, i, c; repeat split; auto using extends_refl.
    + destruct (k s i c) eqn:E.
      * inversion H; subst. exists s, i, c; repeat split; auto using extends_refl.
      * destruct (IH _ _ _ _ _ H) as (s' & i' & c' & Hk & Ex & _).
        exists s', i', c'; repeat split; auto.
  - destruct (IH _ _ _ _ _ H) as (s1 & i1 & c1 & H1 & E1 & M1).
    eexists s1, i1, _; split; [exact H1|split].
    + eapply extends_trans; [exact E1|apply extends_cons].
    + simpl; constructor; [apply bound_cons_self|].
      eapply Forall_impl; [|exact M1]; intros x Hx; apply extends_cons, Hx.
Qed.

Lemma search_success r : forall s i res,
  search r s i = Some res -> Forall (fun n => bound res n = true) (mandatory r).
Proof.
  induction s as [|a s IH]; intros i res H; simpl in H.
  - destruct (m r [] i [] accept) eqn:E; [|discriminate].
    inversion H; subst.
    destruct (m_success _ _ _ _ _ _ E) as (s' & i' & c' & Hk & _ & M).
    unfold accept in Hk; inversion Hk; subst; exact M.
  - destruct (m r (a :: s) i [] accept) eqn:E.
    + inversion H; subst.
      destruct (m_success _ _ _ _ _ _ E) as (s' & i' & c' & Hk & _ & M).
      unfold accept in Hk; inversion Hk; subst; exact M.
    + eapply IH; exact H.
Qed.

Lemma captures_bound r s c n :
  captures r s = Some c -> In n (mandatory r) -> bound c n = true.
Proof.
  intros H Hn; apply search_success in H.
  rewrite Forall_forall in H; auto.
Qed.

Lemma name_bound l c n : bound c n = true -> exists v, name l c n = Some v.
Proof.
  unfold bound, name; destruct (group c n) as [[a b]|]; [eauto|discriminate].
Qed.

Lemma episode_names l c :
  captures episode_regex l = Some c ->
  exists nm season episode,
    name l c "name" = Some nm /\ name l c "season" = Some season /\
    name l c "episode" = Some episode.
Proof.
  intros H.
  destruct (name_bound l c "name") as [nm Hn]; [eapply captures_bound; [exact H|simpl; tauto]|].
  destruct (name_bound l c "season") as [se Hs]; [eapply captures_bound; [exact H|simpl; tauto]|].
  destruct (name_bound l c "episode") as [ep He]; [eapply captures_bound; [exact H|simpl; tauto]|].
  exists nm, se, ep; auto.
Qed.

Lemma movie_names l c :
  captures movie_regex l = Some c ->
  exists nm year, name l c "name" = Some nm /\ name l c "year" = Some year.
Proof.
  intros H.
  destruct (name_bound l c "name") as [nm Hn]; [eapply captures_bound; [exact H|simpl; tauto]|].
  destruct (name_bound l c "year") as [y Hy]; [eapply captures_bound; [exact H|simpl; tauto]|].
  exists nm, y; auto.
Qed.

(** C10: the capture groups of both patterns are mandatory, so every match
    binds them, and [get_destination_file_name] never reports a missing
    capture: its only classification failure is the no-match error. *)
Theorem capture_groups_always_bind : forall tc stem,
  (match captures episode_regex (chars stem) with
   | Some c => bound c "name" && bound c "season" && bound c "episode" = true
   | None => True
   end) /\
  (match captures movie_regex (chars stem) with
   | Some c => bound c "name" && bound c "year" = true
   | None => True
   end) /\
  (match classify tc stem with
   | Err e => missing_capture e = false
   | Ok _ => True
   end).
Proof.
  intros tc stem; split; [|split].
  - destruct (captures episode_regex (chars stem)) eqn:E; [|exact I].
    rewrite !(captures_bound _ _ _ _ E) by (simpl; tauto); reflexivity.
  - destruct (captures movie_regex (chars stem)) eqn:E; [|exact I].
    rewrite !(captures_bound _ _ _ _ E) by (simpl; tauto); reflexivity.
  - unfold classify.
    destruct (captures episode_regex (chars stem)) as [c|] eqn:E.
    + destruct (episode_names _ _ E) as (nm & se & ep & Hn & Hs & He).
      rewrite Hn, Hs, He; exact I.
    + destruct (captures movie_regex (chars stem)) as [c|] eqn:M.
      * destruct (movie_names _ _ M) as (nm & y & Hn & Hy).
        rewrite Hn, Hy; exact I.
      * reflexivity.
Qed.

(** C5: the episode pattern is tried first; a stem that both patterns match
    is rendered from the episode captures. *)
Theorem episode_before_movie : forall tc stem ce cm,
  captures episode_regex (chars stem) = Some ce ->
  captures movie_regex (chars stem) = Some cm ->
  exists nm season episode,
    name (chars stem) ce "name" = Some nm /\
    name (chars stem) ce "season" = Some season /\
    name (chars stem) ce "episode" = Some episode /\
    classify tc stem =
      Ok (tc (str (trim (replace_dots nm))) ++ " - S" ++ pad02 (str season)
          ++ "E" ++ pad02 (str episode))%string.
Proof.
  intros tc stem ce cm He _.
  destruct (episode_names _ _ He) as (nm & se & ep & Hn & Hs & Hp).
  exists nm, se, ep; repeat split; auto.
  unfold classify; rewrite He, Hn, Hs, Hp; reflexivity.
Qed.

Lemma episode_before_movie_witness :
  (exists cm, captures movie_regex (chars "show.2015.s01e02") = Some cm) /\
  classify titlecase "show.2015.s01e02" = Ok "Show 2015 - S01E02"%string.
Proof.
  split; [eexists; vm_compute; reflexivity|].
  destruct (episode_before_movie titlecase "show.2015.s01e02" _ _ eq_refl eq_refl)
    as (nm & se & ep & Hn & Hs & Hp & Hc).
  vm_compute in Hn, Hs, Hp.
  injection Hn as <-; injection Hs as <-; injection Hp as <-.
  rewrite Hc; vm_compute; reflexivity.
Defined.

(** C3 (as the code behaves): a one-digit season or episode is formatted by
    [{:02}] on a string slice, which pads with a trailing space instead of a
    leading zero. *)
Theorem episode_single_digit_format : forall tc,
  classify tc "the.show.s1e2" = Ok (tc "the show" ++ " - S1 E2 ")%string.
Proof. intros tc; vm_compute; reflexivity. Qed.

Lemma search_unfold r s i :
  search r s i =
  match m r s i [] accept with
  | Some c => Some c
  | None => match s with [] => None | _ :: s' => search r s' (S i) end
  end.
Proof. destruct s; reflexivity. Qed.

Lemma lazy_star_reaches p pre : forall s i c k r,
  forallb p pre = true ->
  (forall j, j < length pre -> k (skipn j (pre ++ s)) (i + j) c = None) ->
  k s (i + length pre) c = Some r ->
  star false p (pre ++ s) i c k = Some r.
Proof.
  induction pre as [|a pre IH]; intros s i c k r Hp Hn Hk; simpl in *.
  - rewrite Nat.add_0_r in Hk; destruct s; simpl; rewrite Hk; reflexivity.
  - apply andb_prop in Hp as [Ha Hp].
    pose proof (Hn 0 ltac:(lia)) as H0; rewrite Nat.add_0_r in H0; simpl in H0.
    rewrite H0, Ha.
    apply IH; [exact Hp| |].
    + intros j Hj; specialize (Hn (S j) ltac:(lia)); simpl in Hn.
      replace (i + S j) with (S i + j) in Hn by lia; exact Hn.
    + replace (i + S (length pre)) with (S i + length pre) in Hk by lia; exact Hk.
Qed.

Lemma year_tail_none s i c :
  dotted_year_head s = false -> m year_tail s i c accept = None.
Proof.
  destruct s as [|a [|b1 [|b2 [|b3 [|b4 s]]]]]; simpl; intros H;
    repeat (match goal with |- context [if ?b then _ else _] => destruct b eqn:? end);
    simpl in *; try reflexivity; try discriminate.
Qed.

Lemma year_tail_digits d post i c :
  forallb is_digit d = true -> length d = 4 ->
  m year_tail ("."%char :: d ++ post) i c accept =
  Some (("year"%string, (S i, S (S (S (S (S i)))))) :: c).
Proof.
  intros Hd Hl.
  destruct d as [|b1 [|b2 [|b3 [|b4 [|x d]]]]]; simpl in Hl; try discriminate.
  simpl in Hd |- *.
  repeat rewrite andb_true_iff in Hd.
  destruct Hd as (H1 & H2 & H3 & H4 & _).
  rewrite H1, H2, H3, H4; reflexivity.
Qed.

Lemma name_group l c n a b :
  group c n = Some (a, b) -> name l c n = Some (firstn (b - a) (skipn a l)).
Proof. unfold name; intros ->; reflexivity. Qed.

Lemma firstn_length_app (pre x : list ascii) : firstn (length pre) (pre ++ x) = pre.
Proof. induction pre; simpl; congruence. Qed.

Lemma skipn_length_app (pre x : list ascii) n : skipn (length pre + n) (pre ++ x) = skipn n x.
Proof. induction pre; simpl; auto. Qed.

(** C2 (as the code behaves): the movie pattern's lazy name makes the year
    the FIRST period followed by four digits; the name is everything before
    it and whatever follows the year is dropped. *)
Theorem movie_first_dotted_year : forall tc pre d post,
  forallb is_any pre = true ->
  forallb is_digit d = true -> length d = 4 ->
  existsb (dotted_year_at (pre ++ "."%char :: d ++ post)) (seq 0 (length pre)) = false ->
  captures episode_regex (pre ++ "."%char :: d ++ post) = None ->
  classify tc (str (pre ++ "."%char :: d ++ post)) =
    Ok (tc (str (trim (replace_dots pre))) ++ " (" ++ str d ++ ")")%string.
Proof.
  intros tc pre d post Hany Hd Hl Hfirst Hep.
  set (l := pre ++ "."%char :: d ++ post) in *.
  unfold classify, chars, str at 1; rewrite list_ascii_of_string_of_list_ascii.
  fold (chars (string_of_list_ascii l)).
  unfold chars; rewrite list_ascii_of_string_of_list_ascii.
  rewrite Hep.
  assert (Hm : m movie_regex l 0 [] accept =
               Some (("year"%string, (S (length pre), S (S (S (S (S (length pre)))))))
                     :: ("name"%string, (0, length pre)) :: [])).
  { simpl. unfold l. apply lazy_star_reaches; [exact Hany| |].
    - intros j Hj. apply year_tail_none.
      apply Bool.not_true_iff_false; intros Hy.
      apply Bool.not_true_iff_false in Hfirst; apply Hfirst.
      apply existsb_exists; exists j; split; [apply in_seq; lia|exact Hy].
    - apply year_tail_digits; assumption. }
  unfold captures; rewrite search_unfold, Hm.
  set (c0 := [("year"%string, (S (length pre), S (S (S (S (S (length pre)))))));
              ("name"%string, (0, length pre))]).
  assert (Hn : name l c0 "name" = Some pre).
  { rewrite (name_group l c0 "name" 0 (length pre) eq_refl).
    rewrite Nat.sub_0_r; apply f_equal, firstn_length_app. }
  assert (Hy : name l c0 "year" = Some d).
  { rewrite (name_group l c0 "year" _ _ eq_refl).
    replace (S (S (S (S (S (length pre))))) - S (length pre)) with (length d) by lia.
    unfold l; rewrite <- (Nat.add_1_r (length pre)), skipn_length_app.
    apply f_equal, firstn_length_app. }
  rewrite Hn, Hy; reflexivity.
Qed.

Lemma movie_first_dotted_year_witness :
  classify titlecase (str (chars "movie" ++ "."%char :: chars "1999" ++ chars ".remastered.2015")) =
    Ok (titlecase (str (trim (replace_dots (chars "movie")))) ++ " (" ++ str (chars "1999") ++ ")")%string.
Proof.
  apply movie_first_dotted_year; vm_compute; reflexivity.
Defined.

(** C2 counterexample: with two dotted four-digit groups the first one is
    taken as the year, and the rest of the stem is dropped. *)
Lemma movie_last_year_counterexample :
  classify titlecase "movie.1999.remastered.2015" = Ok "Movie (1999)"%string /\
  classify titlecase "movie.1999.remastered.2015" <> Ok "Movie 1999 Remastered (2015)"%string.
Proof.
  split; [vm_compute; reflexivity|].
  vm_compute; intros H; discriminate H.
Qed.

Lemma files_set_file_same w p v : files (set_file w p v) p = v.
Proof. simpl; now rewrite String.eqb_refl. Qed.

Lemma files_set_file_other w p q v : q <> p -> files (set_file w p v) q = files w q.
Proof. intros H; simpl; apply String.eqb_neq in H; now rewrite H. Qed.

Lemma walk_dirs fn dirs rest w tr :
  forallb (fun h => is_directory h && skip_ok h) dirs = true ->
  walk fn (map Some dirs ++ rest) w tr = walk fn rest w tr.
Proof.
  induction dirs as [|h dirs IH]; simpl; intros H; [reflexivity|].
  apply andb_prop in H as [Hh H]; apply andb_prop in Hh as [Hd Hs].
  unfold is_file; rewrite Hd, Hs; simpl; apply IH, H.
Qed.

Lemma walk_only_dirs fn dirs w tr :
  forallb is_directory dirs = true ->
  walk fn (map Some dirs) w tr =
  if forallb skip_ok dirs then Finished w tr else Failed SkipFailed w tr.
Proof.
  induction dirs as [|h dirs IH]; simpl; intros H; [reflexivity|].
  apply andb_prop in H as [Hd H].
  unfold is_file; rewrite Hd; simpl.
  destruct (skip_ok h); simpl; [apply IH, H|reflexivity].
Qed.

Lemma walk_payload_absent fn h rest w tr ext :
  is_file h = true -> extension (filename h) = Some ext ->
  files w (with_extension fn ext) = None ->
  walk fn (Some h :: rest) w tr = extract_step fn h rest (with_extension fn ext) w tr.
Proof. intros Hf He Hc; simpl; rewrite Hf, He, Hc; reflexivity. Qed.

Lemma walk_payload_same_size fn h rest w tr ext c :
  is_file h = true -> extension (filename h) = Some ext ->
  files w (with_extension fn ext) = Some c ->
  meta_fails w (with_extension fn ext) = false ->
  length c = unpacked_size h ->
  walk fn (Some h :: rest) w tr = Finished w tr.
Proof.
  intros Hf He Hc Hm Hl; simpl; rewrite Hf, He, Hc, Hm, Hl, Nat.eqb_refl; reflexivity.
Qed.

Lemma walk_payload_other_size fn h rest w tr ext c :
  is_file h = true -> extension (filename h) = Some ext ->
  files w (with_extension fn ext) = Some c ->
  meta_fails w (with_extension fn ext) = false ->
  length c <> unpacked_size h ->
  remove_fails w (with_extension fn ext) = false ->
  walk fn (Some h :: rest) w tr =
  extract_step fn h rest (with_extension fn ext)
    (set_file w (with_extension fn ext) None) (tr ++ [OpRemove (with_extension fn ext)]).
Proof.
  intros Hf He Hc Hm Hl Hr; simpl; rewrite Hf, He, Hc, Hm, Hr.
  apply Nat.eqb_neq in Hl; rewrite Nat.eqb_sym, Hl; reflexivity.
Qed.

(** C1 (as the code behaves): the loop reads every entry in turn.  A
    directory entry is skipped and the loop goes on (a failing [skip] is an
    error).  At a payload entry the loop [break]s only when the destination
    exists with the entry's size; after extracting, or after removing and
    extracting, it goes on with the following entries. *)
Theorem walk_continues_after_payload : forall fn h rest w tr,
  (is_directory h = true ->
   walk fn (Some h :: rest) w tr =
   if skip_ok h then walk fn rest w tr else Failed SkipFailed w tr) /\
  (forall ext, is_file h = true -> extension (filename h) = Some ext ->
   let dest := with_extension fn ext in
   (forall c, files w dest = Some c -> meta_fails w dest = false ->
      length c = unpacked_size h ->
      walk fn (Some h :: rest) w tr = Finished w tr) /\
   (forall d, files w dest = None -> extract_behaviour h = ExtractWrites d ->
      walk fn (Some h :: rest) w tr =
      walk fn rest (set_file w dest (Some d)) (tr ++ [OpExtract dest])) /\
   (forall c d, files w dest = Some c -> meta_fails w dest = false ->
      length c <> unpacked_size h -> remove_fails w dest = false ->
      extract_behaviour h = ExtractWrites d ->
      walk fn (Some h :: rest) w tr =
      walk fn rest (set_file (set_file w dest None) dest (Some d))
           ((tr ++ [OpRemove dest]) ++ [OpExtract dest]))).
Proof.
  intros fn h rest w tr; split.
  - intros Hd; simpl; unfold is_file; rewrite Hd; reflexivity.
  - intros ext Hf He dest; split; [|split].
    + intros c Hc Hm Hl; eapply walk_payload_same_size; eauto.
    + intros d Hc Hx; rewrite (walk_payload_absent _ _ _ _ _ _ Hf He Hc).
      unfold extract_step; rewrite Hx; reflexivity.
    + intros c d Hc Hm Hl Hr Hx; rewrite (walk_payload_other_size _ _ _ _ _ _ _ Hf He Hc Hm Hl Hr).
      unfold extract_step; rewrite Hx; reflexivity.
Qed.

Lemma walk_continues_after_payload_witness :
  walk "Movie (2015)" [Some dir_header; Some mkv_header; Some nfo_header] empty_world [] =
  walk "Movie (2015)" [Some mkv_header; Some nfo_header] empty_world [] /\
  walk "Movie (2015)" [Some mkv_header; Some nfo_header] empty_world [] =
  walk "Movie (2015)" [Some nfo_header]
       (set_file empty_world "Movie (2015).mkv" (Some [x01; x02; x03]))
       [OpExtract "Movie (2015).mkv"].
Proof.
  split.
  - destruct (walk_continues_after_payload "Movie (2015)" dir_header
                [Some mkv_header; Some nfo_header] empty_world []) as [Hd _].
    exact (Hd eq_refl).
  - destruct (walk_continues_after_payload "Movie (2015)" mkv_header [Some nfo_header]
                empty_world []) as [_ Hp].
    destruct (Hp "mkv"%string eq_refl eq_refl) as (_ & Hx & _).
    apply (Hx [x01; x02; x03]); reflexivity.
Defined.

(** C1 counterexample: the payload entry after the first one is extracted
    too. *)
Lemma first_payload_stops_counterexample :
  trace_of (extract_rar_file (mkArchive true [Some mkv_header; Some nfo_header])
                             "Movie (2015)" empty_world) =
  [OpExtract "Movie (2015).mkv"; OpExtract "Movie (2015).nfo"].
Proof. vm_compute; reflexivity. Qed.

(** C4 (as the code behaves): when every entry is a directory the loop ends
    with [Ok(())], nothing touched; only a failing [skip] makes it fail. *)
Theorem only_directories_succeeds : forall fn dirs w,
  forallb is_directory dirs = true ->
  extract_rar_file (mkArchive true (map Some dirs)) fn w =
  if forallb skip_ok dirs then Finished w [] else Failed SkipFailed w [].
Proof.
  intros fn dirs w H; unfold extract_rar_file; simpl.
  apply walk_only_dirs, H.
Qed.

Lemma only_directories_succeeds_witness :
  extract_rar_file (mkArchive true [Some dir_header]) "Movie (2015)" empty_world =
  Finished empty_world [].
Proof. apply (only_directories_succeeds "Movie (2015)" [dir_header]); reflexivity. Defined.

(** C4 counterexample: an archive holding one directory entry is not an
    error. *)
Lemma only_directories_counterexample :
  extract_rar_file (mkArchive true [Some dir_header]) "Movie (2015)" empty_world =
  Finished empty_world [].
Proof. reflexivity. Qed.

Lemma walk_trace_prefix fn hs : forall w tr, exists tail, trace_of (walk fn hs w tr) = tr ++ tail.
Proof.
  induction hs as [|[h|] hs IH]; intros w tr; simpl.
  - exists []; now rewrite app_nil_r.
  - repeat match goal with
           | |- context [match ?x with _ => _ end] => destruct x
           end;
      simpl;
      first [ exists []; now rewrite app_nil_r
            | match goal with
              | |- context [walk fn hs ?w' ?tr'] =>
                  destruct (IH w' tr') as [t Ht]; eexists; rewrite Ht;
                  (repeat rewrite <- app_assoc); reflexivity
              end
            | eexists; (repeat rewrite <- app_assoc); reflexivity ].
  - exists []; now rewrite app_nil_r.
Qed.

(** C7: at the first payload entry, when the destination exists with another
    size, the code removes it and then extracts the entry to it; the run
    goes on from there. *)
Theorem size_mismatch_replaces : forall fn dirs p rest w ext c,
  skippable_dirs dirs = true ->
  is_file p = true -> extension (filename p) = Some ext ->
  let dest := with_extension fn ext in
  files w dest = Some c -> meta_fails w dest = false ->
  length c <> unpacked_size p -> remove_fails w dest = false ->
  extract_rar_file (mkArchive true (map Some dirs ++ Some p :: rest)) fn w =
    match extract_behaviour p with
    | ExtractWrites d =>
        walk fn rest (set_file (set_file w dest None) dest (Some d))
             [OpRemove dest; OpExtract dest]
    | ExtractFails lo =>
        Failed ExtractFailed (set_file (set_file w dest None) dest lo)
               [OpRemove dest; OpExtract dest]
    end /\
  exists tail,
    trace_of (extract_rar_file (mkArchive true (map Some dirs ++ Some p :: rest)) fn w) =
    OpRemove dest :: OpExtract dest :: tail.
Proof.
  intros fn dirs p rest w ext c Hd Hf He dest Hc Hm Hl Hr.
  assert (Hrun : extract_rar_file (mkArchive true (map Some dirs ++ Some p :: rest)) fn w =
                 extract_step fn p rest dest (set_file w dest None) [OpRemove dest]).
  { unfold extract_rar_file; simpl.
    rewrite walk_dirs by exact Hd.
    exact (walk_payload_other_size fn p rest w [] ext c Hf He Hc Hm Hl Hr). }
  rewrite Hrun; unfold extract_step; split.
  - destruct (extract_behaviour p); reflexivity.
  - destruct (extract_behaviour p) as [d|lo].
    + destruct (walk_trace_prefix fn rest (set_file (set_file w dest None) dest (Some d))
                  ([OpRemove dest] ++ [OpExtract dest])) as [t Ht].
      exists t; exact Ht.
    + exists []; reflexivity.
Qed.

Lemma size_mismatch_replaces_witness :
  extract_rar_file (mkArchive true [Some dir_header; Some mkv_header])
    "Movie (2015)" (set_file empty_world "Movie (2015).mkv" (Some [x07])) =
  Finished (set_file (set_file (set_file empty_world "Movie (2015).mkv" (Some [x07]))
                        "Movie (2015).mkv" None) "Movie (2015).mkv" (Some [x01; x02; x03]))
           [OpRemove "Movie (2015).mkv"; OpExtract "Movie (2015).mkv"].
Proof.
  destruct (size_mismatch_replaces "Movie (2015)" [dir_header] mkv_header []
              (set_file empty_world "Movie (2015).mkv" (Some [x07])) "mkv" [x07]
              eq_refl eq_refl eq_refl eq_refl eq_refl ltac:(simpl; lia) eq_refl)
    as [H _].
  exact H.
Defined.

(** C8: on the replace path the old file is removed before [extract_to]
    runs; when extraction fails the error is returned and the destination
    holds only what the failed extraction left there, the old file is not
    put back. *)
Theorem failed_replacement_loses_original : forall fn dirs p rest w ext c lo,
  skippable_dirs dirs = true ->
  is_file p = true -> extension (filename p) = Some ext ->
  let dest := with_extension fn ext in
  files w dest = Some c -> meta_fails w dest = false ->
  length c <> unpacked_size p -> remove_fails w dest = false ->
  extract_behaviour p = ExtractFails lo ->
  exists w',
    extract_rar_file (mkArchive true (map Some dirs ++ Some p :: rest)) fn w =
      Failed ExtractFailed w' [OpRemove dest; OpExtract dest] /\
    files w' dest = lo /\
    (forall q, q <> dest -> files w' q = files w q).
Proof.
  intros fn dirs p rest w ext c lo Hd Hf He dest Hc Hm Hl Hr Hx.
  exists (set_file (set_file w dest None) dest lo); split; [|split].
  - unfold extract_rar_file; simpl.
    rewrite walk_dirs by exact Hd.
    rewrite (walk_payload_other_size fn p rest w [] ext c Hf He Hc Hm Hl Hr).
    unfold extract_step; rewrite Hx; reflexivity.
  - apply files_set_file_same.
  - intros q Hq; rewrite !files_set_file_other by exact Hq; reflexivity.
Qed.

Lemma failed_replacement_loses_original_witness :
  exists w',
    extract_rar_file (mkArchive true [Some broken_mkv_header]) "Movie (2015)"
      (set_file empty_world "Movie (2015).mkv" (Some [x07])) =
      Failed ExtractFailed w' [OpRemove "Movie (2015).mkv"; OpExtract "Movie (2015).mkv"] /\
    files w' "Movie (2015).mkv" = None /\
    (forall q, q <> "Movie (2015).mkv"%string ->
       files w' q = files (set_file empty_world "Movie (2015).mkv" (Some [x07])) q).
Proof.
  apply (failed_replacement_loses_original "Movie (2015)" [] broken_mkv_header []
           (set_file empty_world "Movie (2015).mkv" (Some [x07])) "mkv" [x07] None);
    try reflexivity.
  simpl; lia.
Defined.

Lemma walk_payload_remove_fails fn h rest w tr ext c :
  is_file h = true -> extension (filename h) = Some ext ->
  files w (with_extension fn ext) = Some c ->
  meta_fails w (with_extension fn ext) = false ->
  length c <> unpacked_size h ->
  remove_fails w (with_extension fn ext) = true ->
  walk fn (Some h :: rest) w tr = Failed RemoveFailed w tr.
Proof.
  intros Hf He Hc Hm Hl Hr; simpl; rewrite Hf, He, Hc, Hm, Hr.
  apply Nat.eqb_neq in Hl; rewrite Nat.eqb_sym, Hl; reflexivity.
Qed.

(** After the payload entry, directory entries leave the world as it is. *)
Lemma extract_then_dirs fn p rest dest w tr w1 tr1 :
  forallb is_directory rest = true ->
  extract_step fn p (map Some rest) dest w tr = Finished w1 tr1 ->
  exists d, extract_behaviour p = ExtractWrites d /\ w1 = set_file w dest (Some d).
Proof.
  intros Hr H; unfold extract_step in H.
  destruct (extract_behaviour p) as [d|lo]; [|discriminate].
  rewrite walk_only_dirs in H by exact Hr.
  destruct (forallb skip_ok rest); [|discriminate].
  injection H as <- _; eauto.
Qed.

(** C6 (as the code behaves): a destination of the payload's size ends the
    run with nothing touched; a second run after a successful one ends the
    same way when the archive holds a single payload entry. *)
Theorem same_size_is_skipped : forall fn dirs p rest w ext,
  skippable_dirs dirs = true ->
  is_file p = true -> extension (filename p) = Some ext ->
  let dest := with_extension fn ext in
  let rar := mkArchive true (map Some dirs ++ Some p :: map Some rest) in
  (forall c, files w dest = Some c -> meta_fails w dest = false ->
     length c = unpacked_size p -> extract_rar_file rar fn w = Finished w []) /\
  (forallb is_directory rest = true ->
   (forall d, extract_behaviour p = ExtractWrites d -> length d = unpacked_size p) ->
   meta_fails w dest = false ->
   forall w1 tr1, extract_rar_file rar fn w = Finished w1 tr1 ->
   extract_rar_file rar fn w1 = Finished w1 []).
Proof.
  intros fn dirs p rest w ext Hd Hf He dest rar.
  unfold rar, extract_rar_file; simpl; rewrite !walk_dirs by exact Hd.
  split.
  - intros c Hc Hm Hl; exact (walk_payload_same_size fn p _ w [] ext c Hf He Hc Hm Hl).
  - intros Hrest Hwf Hm w1 tr1 H1.
    try rewrite walk_dirs in H1 by exact Hd.
    try rewrite walk_dirs by exact Hd.
    assert (Hfin : forall W d, w1 = set_file W dest (Some d) ->
                   meta_fails W dest = false -> length d = unpacked_size p ->
                   walk fn (Some p :: map Some rest) w1 [] = Finished w1 []).
    { intros W d -> HmW Hl.
      apply (walk_payload_same_size fn p _ _ [] ext d Hf He);
        [apply files_set_file_same|exact HmW|exact Hl]. }
    destruct (files w dest) as [c|] eqn:Hc.
    + destruct (Nat.eq_dec (length c) (unpacked_size p)) as [Heq|Hne].
      * rewrite (walk_payload_same_size fn p _ w [] ext c Hf He Hc Hm Heq) in H1.
        injection H1 as <- _.
        exact (walk_payload_same_size fn p _ w [] ext c Hf He Hc Hm Heq).
      * destruct (remove_fails w dest) eqn:Hr.
        -- rewrite (walk_payload_remove_fails fn p _ w [] ext c Hf He Hc Hm Hne Hr) in H1.
           discriminate.
        -- rewrite (walk_payload_other_size fn p _ w [] ext c Hf He Hc Hm Hne Hr) in H1.
           destruct (extract_then_dirs _ _ _ _ _ _ _ _ Hrest H1) as (d & Hx & Hw1).
           exact (Hfin _ d Hw1 Hm (Hwf d Hx)).
    + rewrite (walk_payload_absent fn p _ w [] ext Hf He Hc) in H1.
      destruct (extract_then_dirs _ _ _ _ _ _ _ _ Hrest H1) as (d & Hx & Hw1).
      exact (Hfin _ d Hw1 Hm (Hwf d Hx)).
Qed.

Lemma same_size_is_skipped_witness :
  extract_rar_file (mkArchive true [Some dir_header; Some mkv_header]) "Movie (2015)"
    (set_file empty_world "Movie (2015).mkv" (Some [x07; x08; x09])) =
  Finished (set_file empty_world "Movie (2015).mkv" (Some [x07; x08; x09])) [].
Proof.
  destruct (same_size_is_skipped "Movie (2015)" [dir_header] mkv_header []
              (set_file empty_world "Movie (2015).mkv" (Some [x07; x08; x09])) "mkv"
              eq_refl eq_refl eq_refl) as [H _].
  apply (H [x07; x08; x09]); reflexivity.
Defined.

(** C6 counterexample: two payload entries of different sizes with one
    destination; after the first run, a second run removes and extracts
    again instead of skipping. *)
Lemma rerun_skips_counterexample :
  match extract_rar_file (mkArchive true [Some mkv_header; Some mkv_header2])
          "Movie (2015)" empty_world with
  | Finished w1 _ =>
      trace_of (extract_rar_file (mkArchive true [Some mkv_header; Some mkv_header2])
                  "Movie (2015)" w1) =
      [OpRemove "Movie (2015).mkv"; OpExtract "Movie (2015).mkv";
       OpRemove "Movie (2015).mkv"; OpExtract "Movie (2015).mkv"]
  | Failed _ _ _ => False
  end.
Proof. vm_compute; reflexivity. Qed.

Lemma find_rar_flat_map es p :
  find is_rar (flat_map (fun e => match e with Some p => [p] | None => [] end) es) = Some p ->
  exists pre post, es = pre ++ Some p :: post /\
    Forall (fun o => match o with Some q => is_rar q = false | None => True end) pre.
Proof.
  induction es as [|[q|] es IH]; simpl; intros H; [discriminate| |].
  - destruct (is_rar q) eqn:Hq.
    + injection H as ->; exists [], es; split; [reflexivity|constructor].
    + destruct (IH H) as (pre & post & -> & Hpre).
      exists (Some q :: pre), post; split; [reflexivity|constructor; assumption].
  - destruct (IH H) as (pre & post & -> & Hpre).
    exists (None :: pre), post; split; [reflexivity|constructor; [exact I|assumption]].
Qed.

(** C9 (as the code behaves): the scan keeps only entries whose extension
    is exactly [rar] and returns the first of them, in directory order:
    every readable entry listed before it has another extension. *)
Theorem find_rar_file_filters_rar : forall es,
  match find_rar_file (Some es) with
  | Ok p =>
      is_rar p = true /\ In (Some p) es /\
      exists pre post, es = pre ++ Some p :: post /\
        Forall (fun o => match o with Some q => is_rar q = false | None => True end) pre
  | Err e =>
      e = RarNotFound /\
      Forall (fun o => match o with Some p => is_rar p = false | None => True end) es
  end.
Proof.
  intros es; unfold find_rar_file.
  set (ps := flat_map (fun e => match e with Some p => [p] | None => [] end) es).
  destruct (find is_rar ps) as [p|] eqn:F.
  - destruct (find_rar_flat_map es p F) as (pre & post & Hes & Hpre).
    apply find_some in F as [_ Hr]; split; [exact Hr|split].
    + rewrite Hes; apply in_or_app; right; left; reflexivity.
    + exists pre, post; split; assumption.
  - split; [reflexivity|].
    apply Forall_forall; intros [q|] Hq; [|exact I].
    apply (find_none _ _ F); unfold ps; apply in_flat_map.
    exists (Some q); simpl; auto.
Qed.

(** C9 counterexample: a lone [.mkv] file is not taken, and a [.rar] file
    listed after it is preferred. *)
Lemma no_extension_filter_counterexample :
  find_rar_file (Some [Some "movie.2015.mkv"%string]) = Err RarNotFound /\
  find_rar_file (Some [Some "movie.2015.mkv"%string; Some "movie.2015.rar"%string]) = Ok "movie.2015.rar"%string.
Proof. split; reflexivity. Qed.

(** ** Further properties of the extraction loop *)

Lemma files_set_file_changed w p q v :
  files (set_file w p v) q <> files w q -> q = p.
Proof.
  simpl; destruct (String.eqb q p) eqn:E; [intros _; apply String.eqb_eq, E|].
  intros H; exfalso; apply H; reflexivity.
Qed.

Lemma walk_trace_keeps fn hs w tr q :
  In q (map op_path tr) -> In q (map op_path (trace_of (walk fn hs w tr))).
Proof.
  destruct (walk_trace_prefix fn hs w tr) as [t ->].
  rewrite map_app; intros H; apply in_or_app; left; exact H.
Qed.

Lemma in_op_path_last tr op : In (op_path op) (map op_path (tr ++ [op])).
Proof. rewrite map_app; apply in_or_app; right; left; reflexivity. Qed.

Lemma walk_frame fn hs : forall w tr q,
  ~ In q (map op_path (trace_of (walk fn hs w tr))) ->
  files (world_of (walk fn hs w tr)) q = files w q.
Proof.
  induction hs as [|[h|] hs IH]; intros w tr q Hq; [reflexivity| |reflexivity].
  simpl in Hq |- *.
  destruct (is_file h); [|destruct (skip_ok h); [apply IH, Hq|reflexivity]].
  destruct (extension (filename h)) as [ext|]; [|reflexivity].
  set (d := with_extension fn ext) in *.
  destruct (files w d) as [c|] eqn:Hc.
  - destruct (meta_fails w d); [reflexivity|].
    destruct (negb (unpacked_size h =? length c)); [|reflexivity].
    destruct (remove_fails w d); [reflexivity|].
    assert (Hqd : q <> d).
    { intros ->; apply Hq.
      destruct (extract_behaviour h) as [data|lo]; simpl.
      - apply walk_trace_keeps; rewrite <- app_assoc; simpl.
        rewrite map_app; apply in_or_app; right; simpl; auto.
      - rewrite <- app_assoc; simpl; rewrite map_app; apply in_or_app; right; simpl; auto. }
    destruct (extract_behaviour h) as [data|lo]; simpl world_of.
    + rewrite IH by exact Hq.
      rewrite !files_set_file_other by exact Hqd; reflexivity.
    + rewrite !files_set_file_other by exact Hqd; reflexivity.
  - assert (Hqd : q <> d).
    { intros ->; apply Hq.
      destruct (extract_behaviour h) as [data|lo]; simpl.
      - apply walk_trace_keeps; exact (in_op_path_last tr (OpExtract d)).
      - exact (in_op_path_last tr (OpExtract d)). }
    destruct (extract_behaviour h) as [data|lo]; simpl world_of.
    + rewrite IH by exact Hq.
      rewrite files_set_file_other by exact Hqd; reflexivity.
    + rewrite files_set_file_other by exact Hqd; reflexivity.
Qed.

Lemma extract_rar_file_frame_core rar fn w q :
  ~ In q (map op_path (trace_of (extract_rar_file rar fn w))) ->
  files (world_of (extract_rar_file rar fn w)) q = files w q.
Proof.
  intros Hq; unfold extract_rar_file in *.
  destruct (opens rar); [apply walk_frame, Hq|reflexivity].
Qed.

(** Frame property of [extract_rar_file]: a file of the destination
    directory whose path appears in no removal or extraction of the run
    keeps its contents, whatever the outcome. *)
Theorem extract_rar_file_frame : forall rar fn w q,
  ~ In q (map op_path (trace_of (extract_rar_file rar fn w))) ->
  files (world_of (extract_rar_file rar fn w)) q = files w q.
Proof. intros rar fn w q; apply extract_rar_file_frame_core. Qed.

Lemma extract_rar_file_frame_witness :
  let w := set_file empty_world "Movie (2015).nfo" (Some [x04; x05]) in
  let rar := mkArchive true [Some mkv_header; None] in
  extract_rar_file rar "Movie (2015)" w =
    Failed ReadFailed (set_file w "Movie (2015).mkv" (Some [x01; x02; x03]))
           [OpExtract "Movie (2015).mkv"] /\
  ~ In "Movie (2015).nfo"%string (map op_path (trace_of (extract_rar_file rar "Movie (2015)" w))) /\
  files (world_of (extract_rar_file rar "Movie (2015)" w)) "Movie (2015).nfo" = Some [x04; x05].
Proof.
  intros w rar.
  assert (H : ~ In "Movie (2015).nfo"%string
                (map op_path (trace_of (extract_rar_file rar "Movie (2015)" w)))).
  { vm_compute; intros H; repeat destruct H as [H|H]; try discriminate H; exact H. }
  split; [reflexivity|split; [exact H|]].
  rewrite (extract_rar_file_frame _ _ _ _ H); reflexivity.
Defined.

Lemma walk_targets fn rar : forall hs w tr,
  (forall x, In x hs -> In x (headers rar)) ->
  Forall (fun op => payload_target rar fn (op_path op)) tr ->
  Forall (fun op => payload_target rar fn (op_path op)) (trace_of (walk fn hs w tr)).
Proof.
  induction hs as [|[h|] hs IH]; intros w tr Hsub Htr; simpl; [exact Htr| |exact Htr].
  assert (Hsub' : forall x, In x hs -> In x (headers rar)) by (intros x Hx; apply Hsub; simpl; auto).
  destruct (is_file h) eqn:Hf; [|destruct (skip_ok h); [apply IH; assumption|exact Htr]].
  destruct (extension (filename h)) as [ext|] eqn:He; [|exact Htr].
  assert (Ht : payload_target rar fn (with_extension fn ext)).
  { exists h, ext; repeat split; auto. apply Hsub; simpl; auto. }
  assert (Hone : forall p, p = with_extension fn ext ->
                 Forall (fun op => payload_target rar fn (op_path op)) [OpRemove p; OpExtract p]
                 /\ Forall (fun op => payload_target rar fn (op_path op)) [OpExtract p]).
  { intros p ->; split; repeat constructor; exact Ht. }
  destruct (Hone _ eq_refl) as [H2 H1].
  destruct (files w (with_extension fn ext)) as [c|].
  - destruct (meta_fails w (with_extension fn ext)); [exact Htr|].
    destruct (negb (unpacked_size h =? length c)); [|exact Htr].
    destruct (remove_fails w (with_extension fn ext)); [exact Htr|].
    destruct (extract_behaviour h); simpl; rewrite <- app_assoc; simpl.
    + apply IH; [exact Hsub'|apply Forall_app; split; assumption].
    + apply Forall_app; split; assumption.
  - destruct (extract_behaviour h); simpl.
    + apply IH; [exact Hsub'|apply Forall_app; split; assumption].
    + apply Forall_app; split; assumption.
Qed.

Lemma extract_rar_file_targets_core rar fn w :
  Forall (fun op => payload_target rar fn (op_path op)) (trace_of (extract_rar_file rar fn w)).
Proof.
  unfold extract_rar_file.
  destruct (opens rar); simpl; [|constructor].
  apply walk_targets; [auto|constructor].
Qed.

(** [extract_rar_file] only ever removes or writes the destination of a
    payload entry of the archive: the canonical name with that entry's
    extension. *)
Theorem extract_rar_file_targets : forall rar fn w,
  Forall (fun op => payload_target rar fn (op_path op)) (trace_of (extract_rar_file rar fn w)).
Proof. intros rar fn w; apply extract_rar_file_targets_core. Qed.

Lemma removal_then_extract_app tr u :
  removal_then_extract tr = true -> removal_then_extract u = true ->
  removal_then_extract (tr ++ u) = true.
Proof.
  induction tr as [|[p|p] tr IH]; simpl; intros Ht Hu; auto.
  destruct tr as [|[q|q] tr']; try discriminate.
  apply andb_prop in Ht as [Hpq Ht]; simpl.
  rewrite Hpq; simpl; apply (IH Ht Hu).
Qed.

Lemma walk_removal_then_extract fn hs : forall w tr,
  removal_then_extract tr = true ->
  removal_then_extract (trace_of (walk fn hs w tr)) = true.
Proof.
  assert (H1 : forall d, removal_then_extract [OpExtract d] = true) by reflexivity.
  assert (H2 : forall d, removal_then_extract [OpRemove d; OpExtract d] = true)
    by (intros d; simpl; rewrite String.eqb_refl; reflexivity).
  induction hs as [|[h|] hs IH]; intros w tr Htr; simpl; [exact Htr| |exact Htr].
  destruct (is_file h); [|destruct (skip_ok h); [apply IH; assumption|exact Htr]].
  destruct (extension (filename h)) as [ext|]; [|exact Htr].
  destruct (files w (with_extension fn ext)) as [c|].
  - destruct (meta_fails w (with_extension fn ext)); [exact Htr|].
    destruct (negb (unpacked_size h =? length c)); [|exact Htr].
    destruct (remove_fails w (with_extension fn ext)); [exact Htr|].
    destruct (extract_behaviour h); simpl; rewrite <- app_assoc; simpl;
      [apply IH|]; apply removal_then_extract_app; auto.
  - destruct (extract_behaviour h); simpl;
      [apply IH|]; apply removal_then_extract_app; auto.
Qed.

(** [extract_rar_file] never removes a destination file without extracting
    to the same path right after: in its trace, every removal is directly
    followed by the extraction to that path, whatever the outcome. *)
Theorem removal_always_followed_by_extract : forall rar fn w,
  removal_then_extract (trace_of (extract_rar_file rar fn w)) = true.
Proof.
  intros rar fn w; unfold extract_rar_file.
  destruct (opens rar); [apply walk_removal_then_extract|]; reflexivity.
Qed.

(** The first payload entry whose file name has no extension, past skipped
    directory entries, makes [extract_rar_file] fail before touching the
    destination directory. *)
Theorem payload_without_extension_fails : forall fn dirs h rest w,
  skippable_dirs dirs = true -> is_file h = true -> extension (filename h) = None ->
  extract_rar_file (mkArchive true (map Some dirs ++ Some h :: rest)) fn w =
  Failed NoExtension w [].
Proof.
  intros fn dirs h rest w Hd Hf He; unfold extract_rar_file; simpl.
  rewrite walk_dirs by exact Hd; simpl; rewrite Hf, He; reflexivity.
Qed.

Lemma payload_without_extension_fails_witness :
  extract_rar_file (mkArchive true [Some dir_header; Some (mkHeader "README" false 4 (ExtractWrites []) true)])
                   "Movie (2015)" empty_world = Failed NoExtension empty_world [].
Proof.
  apply (payload_without_extension_fails "Movie (2015)" [dir_header]
           (mkHeader "README" false 4 (ExtractWrites []) true) [] empty_world);
    reflexivity.
Defined.

(** ** Further properties of [run] *)

(** [run] changes the destination directory only at the destination of a
    payload entry of the archive it found: the canonical name it computed,
    with that entry's extension.  A failure in [verify_paths],
    [find_rar_file] or [get_destination_file_name] changes nothing. *)
Theorem run_changes_only_destinations : forall tc env w q,
  files (run_world (run tc env w)) q <> files w q ->
  verify_paths env = None /\
  exists rar_file file_name,
    find_rar_file (source_listing env) = Ok rar_file /\
    get_destination_file_name tc rar_file = Ok file_name /\
    payload_target (archive_at env rar_file) file_name q.
Proof.
  intros tc env w q Hq; unfold run in Hq.
  destruct (verify_paths env) as [e|]; [contradiction Hq; reflexivity|split; [reflexivity|]].
  destruct (find_rar_file (source_listing env)) as [rar|e]; [|contradiction Hq; reflexivity].
  destruct (get_destination_file_name tc rar) as [f|e] eqn:Hg; [|contradiction Hq; reflexivity].
  exists rar, f; split; [reflexivity|split; [exact Hg|]].
  assert (Hin : In q (map op_path (trace_of (extract_rar_file (archive_at env rar) f w)))).
  { destruct (in_dec string_dec q (map op_path (trace_of (extract_rar_file (archive_at env rar) f w))))
      as [H|H]; [exact H|].
    exfalso; apply Hq; pose proof (extract_rar_file_frame_core _ _ _ _ H) as Hfr.
    destruct (extract_rar_file (archive_at env rar) f w); exact Hfr. }
  apply in_map_iff in Hin as [op [<- Hop]].
  pose proof (extract_rar_file_targets_core (archive_at env rar) f w) as Ht.
  rewrite Forall_forall in Ht; apply Ht, Hop.
Qed.

Lemma run_changes_only_destinations_witness :
  let env := mkEnv true true (Some [None; Some "/src/some.movie.2015.rar"%string])
                   (fun _ => mkArchive true [Some dir_header; Some mkv_header]) in
  files (run_world (run titlecase env empty_world)) "Some Movie (2015).mkv" <>
  files empty_world "Some Movie (2015).mkv" /\
  verify_paths env = None /\
  exists rar_file file_name,
    find_rar_file (source_listing env) = Ok rar_file /\
    get_destination_file_name titlecase rar_file = Ok file_name /\
    payload_target (archive_at env rar_file) file_name "Some Movie (2015).mkv".
Proof.
  intros env.
  assert (H : files (run_world (run titlecase env empty_world)) "Some Movie (2015).mkv" <>
              files empty_world "Some Movie (2015).mkv")
    by (vm_compute; discriminate).
  split; [exact H|].
  apply (run_changes_only_destinations titlecase env empty_world _ H).
Defined.

(** ** Further properties of the notification e-mail *)

Lemma ascii_eqb_true a b : ascii_eqb a b = true -> a = b.
Proof.
  unfold ascii_eqb; intros H; apply Nat.eqb_eq in H.
  rewrite <- (ascii_nat_embedding a), <- (ascii_nat_embedding b), H; reflexivity.
Qed.

Lemma drop_slashes_repeat n l :
  drop_slashes (repeat "/"%char n ++ l) = drop_slashes l.
Proof. induction n as [|n IH]; [reflexivity|exact IH]. Qed.

Lemma drop_slashes_keep l : hd_error l <> Some "/"%char -> drop_slashes l = l.
Proof.
  destruct l as [|a l]; simpl; intros H; [reflexivity|].
  destruct (ascii_eqb a "/") eqn:E; [|reflexivity].
  apply ascii_eqb_true in E; subst a; contradiction H; reflexivity.
Qed.

(** The messages URL of [send_email] does not depend on trailing slashes of
    the API base path: for a base path not ending in '/', followed by any
    number of '/', it is the base path, '/', the domain and "/messages". *)
Theorem messages_url_trailing_slashes : forall t dom base key n,
  hd_error (rev base) <> Some "/"%char ->
  messages_url (mkClient t dom (str (base ++ repeat "/"%char n)) key) =
  (str base ++ "/" ++ dom ++ "/messages")%string.
Proof.
  intros t dom base key n H; unfold messages_url, trim_end_slashes, chars, str; simpl.
  rewrite list_ascii_of_string_of_list_ascii, rev_app_distr, rev_repeat,
    drop_slashes_repeat, drop_slashes_keep, rev_involutive by exact H.
  reflexivity.
Qed.

Lemma messages_url_trailing_slashes_witness :
  messages_url (mkClient "me@example.com" "mg.example.com"
                  (str (chars "https://api.mailgun.net/v3" ++ repeat "/"%char 2)) "key") =
  "https://api.mailgun.net/v3/mg.example.com/messages"%string.
Proof.
  apply (messages_url_trailing_slashes "me@example.com" "mg.example.com"
           (chars "https://api.mailgun.net/v3") "key" 2).
  vm_compute; discriminate.
Defined.

(** ** Further properties of the path functions *)

Lemma split_on_app sep x y :
  exists w ws, split_on sep (x ++ sep :: y) = w :: ws ++ split_on sep y.
Proof.
  induction x as [|a x IH]; simpl.
  - assert (E : ascii_eqb sep sep = true) by apply Nat.eqb_refl.
    rewrite E; exists [], []; reflexivity.
  - destruct IH as (w & ws & ->).
    destruct (ascii_eqb a sep).
    + exists [], (w :: ws); reflexivity.
    + exists (a :: w), ws; reflexivity.
Qed.

Lemma split_on_none sep l :
  forallb (fun a => negb (ascii_eqb a sep)) l = true -> split_on sep l = [l].
Proof.
  induction l as [|a l IH]; simpl; intros H; [reflexivity|].
  apply andb_prop in H as [Ha H]; apply negb_true_iff in Ha; rewrite Ha, IH by exact H.
  reflexivity.
Qed.

Lemma list_eqb_true l1 l2 : list_eqb l1 l2 = true -> l1 = l2.
Proof.
  unfold list_eqb, str; intros H; apply String.eqb_eq in H.
  rewrite <- (list_ascii_of_string_of_list_ascii l1), H, list_ascii_of_string_of_list_ascii.
  reflexivity.
Qed.

Lemma list_eqb_length l1 l2 : length l1 <> length l2 -> list_eqb l1 l2 = false.
Proof.
  intros H; destruct (list_eqb l1 l2) eqn:E; [|reflexivity].
  apply list_eqb_true in E; subst; contradiction H; reflexivity.
Qed.

Lemma path_file_name_last dir l :
  forallb (fun a => negb (ascii_eqb a "/")) l = true -> 3 <= length l ->
  path_file_name (str (dir ++ "/"%char :: l)) = Some l.
Proof.
  intros Hl Hlen; unfold path_file_name, chars, str.
  rewrite list_ascii_of_string_of_list_ascii.
  destruct (split_on_app "/" dir l) as (w & ws & ->).
  rewrite split_on_none by exact Hl.
  rewrite app_comm_cons, filter_app; simpl.
  rewrite (list_eqb_length l []), (list_eqb_length l ["."%char]) by (simpl; lia); simpl.
  rewrite rev_app_distr; simpl.
  rewrite (list_eqb_length l ["."%char; "."%char]) by (simpl; lia); reflexivity.
Qed.

(** Round trip of [find_rar_file] and [get_destination_file_name]: for a
    path ending in '/', a non-empty name without '/' and ".rar", the path is
    taken as an archive and its destination name is classified from that
    name (periods included), whatever the directory part. *)
Theorem rar_path_round_trip : forall tc dir stem,
  stem <> [] -> forallb (fun a => negb (ascii_eqb a "/")) stem = true ->
  let p := str (dir ++ "/"%char :: stem ++ chars ".rar") in
  is_rar p = true /\ get_destination_file_name tc p = classify tc (str stem).
Proof.
  intros tc dir stem Hne Hs p.
  assert (Hl : forallb (fun a => negb (ascii_eqb a "/")) (stem ++ chars ".rar") = true)
    by (rewrite forallb_app, Hs; reflexivity).
  assert (Hlen : 3 <= length (stem ++ chars ".rar")) by (rewrite length_app; change (length (chars ".rar")) with 4; lia).
  assert (Hr : rsplit_file_at_dot (stem ++ chars ".rar") = (Some stem, Some (chars "rar"))).
  { unfold rsplit_file_at_dot.
    rewrite (list_eqb_length _ (chars "..")) by (rewrite length_app; change (length (chars ".rar")) with 4; simpl; lia).
    rewrite rev_app_distr; simpl.
    destruct (rev stem) as [|a r] eqn:E.
    - apply (f_equal (@rev ascii)) in E; rewrite rev_involutive in E; contradiction.
    - rewrite <- E, rev_involutive; reflexivity. }
  unfold p, is_rar, get_destination_file_name, file_stem, extension.
  rewrite path_file_name_last by assumption; rewrite Hr; simpl.
  split; reflexivity.
Qed.

Lemma rar_path_round_trip_witness :
  is_rar "/downloads/the.show.s01e02.rar" = true /\
  get_destination_file_name titlecase "/downloads/the.show.s01e02.rar" =
  classify titlecase "the.show.s01e02".
Proof.
  exact (rar_path_round_trip titlecase (chars "/downloads") (chars "the.show.s01e02")
           ltac:(discriminate) eq_refl).
Defined.

(** ** Further properties of the episode pattern *)

Lemma m_other_groups r : forall s i c k res,
  m r s i c k = Some res ->
  exists s' i' c', k s' i' c' = Some res /\
    forall n, ~ In n (group_names r) -> group c' n = group c n.
Proof.
  induction r as [p|r1 IH1 r2 IH2|g p|g r1 IH|n0 r1 IH]; intros s i c k res H; simpl in H.
  - destruct s as [|a s]; [discriminate|].
    destruct (p a); [|discriminate].
    exists s, (S i), c; split; auto.
  - destruct (IH1 _ _ _ _ _ H) as (s1 & i1 & c1 & H1 & G1).
    destruct (IH2 _ _ _ _ _ H1) as (s2 & i2 & c2 & H2 & G2).
    exists s2, i2, c2; split; [exact H2|].
    intros n Hn; simpl in Hn; rewrite G2, G1; [reflexivity| |];
      intros Hin; apply Hn, in_or_app; auto.
  - destruct (star_success _ _ _ _ _ _ _ H) as (s' & i' & Hk).
    exists s', i', c; split; auto.
  - destruct g.
    + destruct (m r1 s i c k) eqn:E.
      * inversion H; subst. exact (IH _ _ _ _ _ E).
      * exists s, i, c; split; auto.
    + destruct (k s i c) eqn:E.
      * inversion H; subst. exists s, i, c; split; auto.
      * exact (IH _ _ _ _ _ H).
  - destruct (IH _ _ _ _ _ H) as (s1 & i1 & c1 & H1 & G1).
    eexists s1, i1, _; split; [exact H1|].
    intros n Hn; simpl in Hn |- *.
    destruct (String.eqb n n0) eqn:E.
    + apply String.eqb_eq in E; subst; contradiction Hn; left; reflexivity.
    + apply G1; intros Hin; apply Hn; right; exact Hin.
Qed.

Lemma episode_rest_none s i c :
  m episode_rest s i c accept = None <-> episode_marker s = false.
Proof.
  unfold episode_marker, after_season, e_then_digit, episode_rest, digits_1_2, accept.
  destruct s as [|a1 [|a2 [|a3 [|a4 [|a5 [|a6 [|a7 s]]]]]]]; cbn;
    repeat (match goal with
            | |- context [if ?b then _ else _] => destruct b
            end; cbn);
    rewrite ?orb_true_r, ?andb_true_r, ?orb_false_r, ?andb_false_r; simpl;
    split; intros; (reflexivity || discriminate).
Qed.

Lemma greedy_star_none p s : forall i c k,
  forallb p s = true ->
  star true p s i c k = None <->
  (forall j, j <= length s -> k (skipn j s) (i + j) c = None).
Proof.
  induction s as [|a s IH]; intros i c k Hp; simpl.
  - split.
    + intros H j Hj; replace j with 0 by lia; rewrite Nat.add_0_r; exact H.
    + intros H; specialize (H 0 (le_n 0)); rewrite Nat.add_0_r in H; exact H.
  - apply andb_prop in Hp as [Ha Hp]; rewrite Ha.
    destruct (star true p s (S i) c k) eqn:E.
    + split; [discriminate|intros H].
      assert (Hn : star true p s (S i) c k = None).
      { apply IH; [exact Hp|]; intros j Hj.
        replace (S i + j) with (i + S j) by lia; apply (H (S j)); lia. }
      congruence.
    + pose proof (proj1 (IH (S i) c k Hp) E) as E'; clear E; rename E' into E.
      split.
      * intros Hk [|j] Hj; [rewrite Nat.add_0_r; exact Hk|].
        replace (i + S j) with (S i + j) by lia; apply E; lia.
      * intros H; specialize (H 0 (Nat.le_0_l _)); rewrite Nat.add_0_r in H; exact H.
Qed.

Lemma greedy_star_some p s : forall i c k res,
  forallb p s = true ->
  star true p s i c k = Some res ->
  exists j, j <= length s /\ k (skipn j s) (i + j) c = Some res /\
    forall j', j < j' -> j' <= length s -> k (skipn j' s) (i + j') c = None.
Proof.
  induction s as [|a s IH]; intros i c k res Hp H; simpl in H |- *.
  - exists 0; rewrite Nat.add_0_r; split; [lia|split; [exact H|lia]].
  - apply andb_prop in Hp as [Ha Hp]; rewrite Ha in H.
    destruct (star true p s (S i) c k) eqn:E.
    + injection H as <-.
      destruct (IH _ _ _ _ Hp E) as (j & Hj & Hk & Hlast).
      exists (S j); split; [lia|split].
      * replace (i + S j) with (S i + j) by lia; exact Hk.
      * intros [|j'] H1 H2; [lia|].
        replace (i + S j') with (S i + j') by lia; apply Hlast; lia.
    + pose proof (proj1 (greedy_star_none p s (S i) c k Hp) E) as E'; clear E; rename E' into E.
      exists 0; split; [lia|split; [rewrite Nat.add_0_r; exact H|]].
      intros [|j'] H1 H2; [lia|].
      replace (i + S j') with (S i + j') by lia; apply E; lia.
Qed.

Lemma episode_m_unfold s i c :
  m episode_regex s i c accept =
  star true is_any s i c
    (fun s' i' c' => m episode_rest s' i' (("name"%string, (i, i')) :: c') accept).
Proof. reflexivity. Qed.

Lemma search_episode_none s : forall i,
  forallb is_any s = true ->
  (forall j, j <= length s -> episode_marker (skipn j s) = false) ->
  search episode_regex s i = None.
Proof.
  induction s as [|a s IH]; intros i Hs Hm; rewrite search_unfold.
  - reflexivity.
  - assert (E : m episode_regex (a :: s) i [] accept = None).
    { rewrite episode_m_unfold; apply greedy_star_none; [exact Hs|].
      intros j Hj; apply episode_rest_none, Hm, Hj. }
    rewrite E; simpl in Hs; apply andb_prop in Hs as [_ Hs].
    apply IH; [exact Hs|]; intros j Hj; apply (Hm (S j)); simpl; lia.
Qed.

(** The episode pattern's [name] group is greedy: on a file stem without a
    line feed, it ends at the LAST offset where a season/episode marker
    starts ([s] or [S], one or two digits, an optional character, [e] or
    [E], a digit), so a stem carrying several markers is named after the
    last one; without any marker the pattern does not match. *)
Theorem episode_name_ends_at_last_marker : forall l,
  forallb is_any l = true ->
  match captures episode_regex l with
  | Some c =>
      exists k, k <= length l /\ name l c "name" = Some (firstn k l) /\
        episode_marker (skipn k l) = true /\
        forall j, k < j -> j <= length l -> episode_marker (skipn j l) = false
  | None => forall j, j <= length l -> episode_marker (skipn j l) = false
  end.
Proof.
  intros l Hl; unfold captures.
  destruct (m episode_regex l 0 [] accept) as [c|] eqn:E.
  - assert (Hs : search episode_regex l 0 = Some c)
      by (rewrite search_unfold, E; reflexivity).
    rewrite Hs; rewrite episode_m_unfold in E.
    destruct (greedy_star_some _ _ _ _ _ _ Hl E) as (k & Hk & Hm & Hlast).
    exists k; split; [exact Hk|split; [|split]].
    + destruct (m_other_groups _ _ _ _ _ _ Hm) as (s' & i' & c' & Hacc & G).
      unfold accept in Hacc; injection Hacc as ->.
      unfold name; rewrite G by (simpl; intros [H|[H|[]]]; discriminate H).
      simpl; rewrite Nat.sub_0_r; reflexivity.
    + destruct (episode_marker (skipn k l)) eqn:M; [reflexivity|].
      apply (episode_rest_none _ (0 + k) [("name"%string, (0, 0 + k))]) in M.
      rewrite M in Hm; discriminate.
    + intros j Hj1 Hj2; apply (episode_rest_none _ (0 + j) [("name"%string, (0, 0 + j))]).
      apply Hlast; assumption.
  - assert (Hall : forall j, j <= length l -> episode_marker (skipn j l) = false).
    { rewrite episode_m_unfold in E.
      pose proof (proj1 (greedy_star_none _ _ _ _ _ Hl) E) as E'; clear E; rename E' into E.
      intros j Hj; apply (episode_rest_none _ (0 + j) [("name"%string, (0, 0 + j))]), E, Hj. }
    rewrite (search_episode_none l 0 Hl Hall); exact Hall.
Qed.

Lemma episode_name_ends_at_last_marker_witness :
  forallb is_any (chars "show.s01e02.s01e03") = true /\
  name (chars "show.s01e02.s01e03")
       match captures episode_regex (chars "show.s01e02.s01e03") with
       | Some c => c | None => [] end "name" = Some (chars "show.s01e02.") /\
  match captures episode_regex (chars "show.s01e02.s01e03") with
  | Some c =>
      exists k, k <= length (chars "show.s01e02.s01e03") /\
        name (chars "show.s01e02.s01e03") c "name" = Some (firstn k (chars "show.s01e02.s01e03")) /\
        episode_marker (skipn k (chars "show.s01e02.s01e03")) = true /\
        forall j, k < j -> j <= length (chars "show.s01e02.s01e03") ->
          episode_marker (skipn j (chars "show.s01e02.s01e03")) = false
  | None => forall j, j <= length (chars "show.s01e02.s01e03") ->
          episode_marker (skipn j (chars "show.s01e02.s01e03")) = false
  end.
Proof.
  split; [reflexivity|split; [vm_compute; reflexivity|]].
  apply episode_name_ends_at_last_marker; reflexivity.
Defined.

Lemma break_at_dot_first x r :
  forallb (fun a => negb (is_dot a)) x = true ->
  break_at_dot (x ++ "."%char :: r) = Some (x, r).
Proof.
  induction x as [|a x IH]; simpl; intros H; [reflexivity|].
  apply andb_prop in H as [Ha H]; apply negb_true_iff in Ha; rewrite Ha, IH by exact H.
  reflexivity.
Qed.

Lemma break_at_dot_none x :
  forallb (fun a => negb (is_dot a)) x = true -> break_at_dot x = None.
Proof.
  induction x as [|a x IH]; simpl; intros H; [reflexivity|].
  apply andb_prop in H as [Ha H]; apply negb_true_iff in Ha; rewrite Ha, IH by exact H.
  reflexivity.
Qed.

Lemma forallb_rev {A} (p : A -> bool) l : forallb p (rev l) = forallb p l.
Proof.
  induction l as [|a l IH]; simpl; [reflexivity|].
  rewrite forallb_app, IH; simpl; rewrite andb_true_r, andb_comm; reflexivity.
Qed.

Lemma path_file_name_single l :
  forallb (fun a => negb (ascii_eqb a "/")) l = true -> 1 <= length l ->
  l <> ["."%char] -> l <> ["."%char; "."%char] ->
  path_file_name (str l) = Some l.
Proof.
  intros Hl Hlen H1 H2; unfold path_file_name, chars, str.
  rewrite list_ascii_of_string_of_list_ascii, split_on_none by exact Hl; simpl.
  rewrite (list_eqb_length l []) by (simpl; lia).
  destruct (list_eqb l ["."%char]) eqn:E1; [apply list_eqb_true in E1; contradiction|].
  destruct (list_eqb l ["."%char; "."%char]) eqn:E2; [apply list_eqb_true in E2; contradiction|].
  simpl; rewrite E2; reflexivity.
Qed.

(** [with_extension] on a canonical name without a period appends a period
    and the extension. *)
Theorem with_extension_appends : forall l ext,
  ext <> ""%string -> l <> [] ->
  forallb (fun a => negb (is_dot a) && negb (ascii_eqb a "/")) l = true ->
  with_extension (str l) ext = (str l ++ "." ++ ext)%string.
Proof.
  intros l ext Hext Hne Hl.
  assert (Hs : forallb (fun a => negb (ascii_eqb a "/")) l = true).
  { rewrite forallb_forall in Hl |- *; intros a Ha; apply Hl in Ha.
    apply andb_prop in Ha as [_ Ha]; exact Ha. }
  assert (Hd : forallb (fun a => negb (is_dot a)) l = true).
  { rewrite forallb_forall in Hl |- *; intros a Ha; apply Hl in Ha.
    apply andb_prop in Ha as [Ha _]; exact Ha. }
  assert (Hnd : forall x, l <> "."%char :: x).
  { intros x ->; simpl in Hd; discriminate Hd. }
  unfold with_extension, file_stem.
  rewrite path_file_name_single;
    [| exact Hs | destruct l; [contradiction|simpl; lia] | apply Hnd | apply Hnd].
  unfold rsplit_file_at_dot.
  destruct (list_eqb l (chars "..")) eqn:E;
    [apply list_eqb_true in E; contradiction (Hnd ["."%char]) |].
  rewrite break_at_dot_none by (rewrite forallb_rev; exact Hd); simpl.
  apply String.eqb_neq in Hext; rewrite Hext; reflexivity.
Qed.

Lemma with_extension_appends_witness :
  with_extension "Some Movie (2015)" "mkv" = "Some Movie (2015).mkv"%string.
Proof.
  exact (with_extension_appends (chars "Some Movie (2015)") "mkv" ltac:(discriminate)
           ltac:(discriminate) eq_refl).
Defined.

(** [with_extension] on a canonical name holding a period replaces what
    follows its last period by the extension: the destination of a payload
    entry then loses that part of the name. *)
Theorem with_extension_cuts_at_last_dot : forall pre post ext,
  ext <> ""%string -> pre <> [] -> pre ++ "."%char :: post <> chars ".." ->
  forallb (fun a => negb (ascii_eqb a "/")) (pre ++ post) = true ->
  forallb (fun a => negb (is_dot a)) post = true ->
  with_extension (str (pre ++ "."%char :: post)) ext = (str pre ++ "." ++ ext)%string.
Proof.
  intros pre post ext Hext Hne Hdd Hs Hp.
  unfold with_extension, file_stem.
  rewrite path_file_name_single.
  2:{ rewrite forallb_app in Hs |- *; apply andb_prop in Hs as [H1 H2].
      rewrite H1; simpl; exact H2. }
  2:{ rewrite length_app; simpl; lia. }
  2:{ destruct pre as [|a [|b pre]]; [contradiction|discriminate|discriminate]. }
  2:{ exact Hdd. }
  unfold rsplit_file_at_dot.
  destruct (list_eqb (pre ++ "."%char :: post) (chars "..")) eqn:E;
    [apply list_eqb_true in E; contradiction|].
  rewrite rev_app_distr; simpl; rewrite <- app_assoc; simpl.
  rewrite break_at_dot_first by (rewrite forallb_rev; exact Hp).
  destruct (rev pre) as [|a r] eqn:Er.
  - apply (f_equal (@rev ascii)) in Er; rewrite rev_involutive in Er; contradiction.
  - rewrite <- Er, rev_involutive; simpl.
    apply String.eqb_neq in Hext; rewrite Hext; reflexivity.
Qed.

Lemma with_extension_cuts_at_last_dot_witness :
  with_extension "Mr. Robot - S01E02" "mkv" = "Mr.mkv"%string.
Proof.
  exact (with_extension_cuts_at_last_dot (chars "Mr") (chars " Robot - S01E02") "mkv"
           ltac:(discriminate) ltac:(discriminate) ltac:(discriminate) eq_refl eq_refl).
Defined.
